(** * UAVLogViewer: angle helpers of [src/mavextra/mymavextra.js] and the
    chatbot core described by the repository's design documents.

    The JavaScript helpers are embedded over the real numbers: a JS number
    is read as the real it denotes and [-], [+], [>], [<] as the exact
    operations, the reading under which the properties below speak of
    "every real number".  Rounding, NaN and the infinities of IEEE doubles
    are outside this model. *)

From Stdlib Require Import Reals Lra QArith Qreals Ascii String.
From stdpp Require Import gmap strings list.

#[local] Set Warnings "-clear-no-such-hyp".

(** ** [mymavextra.js] *)

Module Mavextra.

Local Open Scope R_scope.

(** [window.angle_diff = (angle1, angle2) => ...] *)
Definition angle_diff (angle1 angle2 : R) : R :=
  let ret := angle1 - angle2 in
  let ret := if Rgt_dec ret 180 then ret - 360 else ret in
  let ret := if Rlt_dec ret (-180) then ret + 360 else ret in
  ret.

(** [window.wrap_360 = (angle) => ...] *)
Definition wrap_360 (angle : R) : R :=
  let ret := angle in
  let ret := if Rgt_dec ret 360 then ret - 360 else ret in
  let ret := if Rlt_dec ret 0 then ret + 360 else ret in
  ret.

(** [window.wrap_180 = (angle) => ...] *)
Definition wrap_180 (angle : R) : R :=
  let ret := angle in
  let ret := if Rgt_dec ret 180 then ret - 360 else ret in
  let ret := if Rlt_dec ret (-180) then ret + 360 else ret in
  ret.

(** Case analysis on every comparison a helper makes, then linear real
    arithmetic in each branch. *)
Ltac branches :=
  repeat match goal with
         | |- context [Rgt_dec ?a ?b] => destruct (Rgt_dec a b)
         | |- context [Rlt_dec ?a ?b] => destruct (Rlt_dec a b)
         end;
  try lra.

Example angle_diff_350_10 : angle_diff 350 10 = -20.
Proof. unfold angle_diff; cbv zeta; branches. Qed.

Example angle_diff_10_350 : angle_diff 10 350 = 20.
Proof. unfold angle_diff; cbv zeta; branches. Qed.

Example wrap_360_at_360 : wrap_360 360 = 360.
Proof. unfold wrap_360; cbv zeta; branches. Qed.

Example wrap_360_of_1000 : wrap_360 1000 = 640.
Proof. unfold wrap_360; cbv zeta; branches. Qed.

Example wrap_180_of_270 : wrap_180 270 = -90.
Proof. unfold wrap_180; cbv zeta; branches. Qed.

(** C8. [angle_diff] is antisymmetric: swapping the two angles negates the
    result, for every pair of real numbers. *)
Theorem angle_diff_antisym (angle1 angle2 : R) :
  angle_diff angle1 angle2 = - angle_diff angle2 angle1.
Proof. unfold angle_diff; cbv zeta; branches. Qed.

(** C9. [wrap_180] is [angle_diff] against a zero second argument, for every
    real number. *)
Theorem wrap_180_is_angle_diff_0 (angle : R) :
  wrap_180 angle = angle_diff angle 0.
Proof.
  unfold wrap_180, angle_diff; cbv zeta.
  replace (angle - 0) with angle by lra. reflexivity.
Qed.

(** C10. On [-360, 720] the result of [wrap_360] lies in [0, 360] and is
    [angle], [angle - 360] or [angle + 360]; outside that interval exactly
    one of the two corrections is applied and the result falls outside
    [0, 360]. *)
Theorem wrap_360_range (angle : R) :
  (-360 <= angle <= 720 ->
     0 <= wrap_360 angle <= 360 /\
     (wrap_360 angle = angle \/ wrap_360 angle = angle - 360 \/
      wrap_360 angle = angle + 360)) /\
  (angle < -360 \/ 720 < angle ->
     (wrap_360 angle = angle - 360 \/ wrap_360 angle = angle + 360) /\
     ~ (0 <= wrap_360 angle <= 360)).
Proof.
  unfold wrap_360; cbv zeta; split; intros H.
  - destruct (Rgt_dec angle 360) as [Hgt | Hle].
    + destruct (Rlt_dec (angle - 360) 0); [lra |].
      split; [lra | right; left; reflexivity].
    + destruct (Rlt_dec angle 0).
      * split; [lra | right; right; reflexivity].
      * split; [lra | left; reflexivity].
  - destruct (Rgt_dec angle 360) as [Hgt | Hle].
    + destruct (Rlt_dec (angle - 360) 0); [lra |].
      split; [left; reflexivity | lra].
    + destruct (Rlt_dec angle 0); [| lra].
      split; [right; reflexivity | lra].
Qed.

Lemma wrap_360_range_witness :
  (-360 <= 400 <= 720) /\ (0 <= wrap_360 400 <= 360) /\
  (1000 < -360 \/ 720 < 1000) /\ ~ (0 <= wrap_360 1000 <= 360).
Proof.
  assert (Hin : -360 <= 400 <= 720) by lra.
  assert (Hout : 1000 < -360 \/ 720 < 1000) by (right; lra).
  split; [exact Hin |].
  split; [exact (proj1 (proj1 (wrap_360_range 400) Hin)) |].
  split; [exact Hout |].
  exact (proj2 (proj2 (wrap_360_range 1000) Hout)).
Defined.

End Mavextra.

(** The same three helpers on rational inputs, where the comparisons
    compute.  They agree with the real-number versions above, which lets
    the helpers be run. *)

Module MavextraQ.

Local Open Scope Q_scope.

(** [x > y] and [x < y] as booleans. *)
Definition gtb (x y : Q) : bool := negb (Qle_bool x y).
Definition ltb (x y : Q) : bool := negb (Qle_bool y x).

Definition angle_diff (angle1 angle2 : Q) : Q :=
  let ret := angle1 - angle2 in
  let ret := if gtb ret 180 then ret - 360 else ret in
  let ret := if ltb ret (-180) then ret + 360 else ret in
  ret.

Definition wrap_360 (angle : Q) : Q :=
  let ret := angle in
  let ret := if gtb ret 360 then ret - 360 else ret in
  let ret := if ltb ret 0 then ret + 360 else ret in
  ret.

Definition wrap_180 (angle : Q) : Q :=
  let ret := angle in
  let ret := if gtb ret 180 then ret - 360 else ret in
  let ret := if ltb ret (-180) then ret + 360 else ret in
  ret.

Example run_angle_diff : Qred (angle_diff 350 10) = -20.
Proof. vm_compute. reflexivity. Qed.

Example run_angle_diff_half : Qred (angle_diff (1 # 2) 181) = 359 # 2.
Proof. vm_compute. reflexivity. Qed.

Example run_wrap_360 :
  map (fun a => Qred (wrap_360 a)) [-361; -360; -1; 0; 360; 361; 720; 721]
  = [-1; 0; 359; 0; 360; 1; 360; 361].
Proof. vm_compute. reflexivity. Qed.

Example run_wrap_180 :
  map (fun a => Qred (wrap_180 a)) [-181; -180; 0; 180; 181; 541]
  = [179; -180; 0; 180; -179; 181].
Proof. vm_compute. reflexivity. Qed.

Lemma gtb_true (x y : Q) : gtb x y = true -> (Q2R x > Q2R y)%R.
Proof.
  unfold gtb. intros H. apply negb_true_iff in H.
  apply Rlt_gt, Qlt_Rlt, Qnot_le_lt. intros Hle.
  apply Qle_bool_iff in Hle. congruence.
Qed.

Lemma gtb_false (x y : Q) : gtb x y = false -> ~ (Q2R x > Q2R y)%R.
Proof.
  unfold gtb. intros H. apply negb_false_iff in H.
  apply Qle_bool_iff, Qle_Rle in H. lra.
Qed.

Lemma ltb_true (x y : Q) : ltb x y = true -> (Q2R x < Q2R y)%R.
Proof. intros H. apply Rgt_lt. apply (gtb_true y x). exact H. Qed.

Lemma ltb_false (x y : Q) : ltb x y = false -> ~ (Q2R x < Q2R y)%R.
Proof. intros H Hlt. apply (gtb_false y x H). apply Rlt_gt. exact Hlt. Qed.

(** One guarded correction, on both sides of [Q2R]. *)
Lemma gt_step (ret k : Q) :
  Q2R (if gtb ret k then ret - 360 else ret)
  = (if Rgt_dec (Q2R ret) (Q2R k) then Q2R ret - 360 else Q2R ret)%R.
Proof.
  destruct (gtb ret k) eqn:E; destruct (Rgt_dec (Q2R ret) (Q2R k)) as [H | H].
  - rewrite Q2R_minus. lra.
  - apply gtb_true in E. contradiction.
  - apply gtb_false in E. contradiction.
  - reflexivity.
Qed.

Lemma lt_step (ret k : Q) :
  Q2R (if ltb ret k then ret + 360 else ret)
  = (if Rlt_dec (Q2R ret) (Q2R k) then Q2R ret + 360 else Q2R ret)%R.
Proof.
  destruct (ltb ret k) eqn:E; destruct (Rlt_dec (Q2R ret) (Q2R k)) as [H | H].
  - rewrite Q2R_plus. lra.
  - apply ltb_true in E. contradiction.
  - apply ltb_false in E. contradiction.
  - reflexivity.
Qed.

Lemma Q2R_180 : Q2R 180 = 180%R.
Proof. lra. Qed.

Lemma Q2R_m180 : Q2R (-180) = (-180)%R.
Proof. lra. Qed.

Lemma Q2R_360 : Q2R 360 = 360%R.
Proof. lra. Qed.

Lemma Q2R_0 : Q2R 0 = 0%R.
Proof. lra. Qed.

Lemma angle_diff_agrees (angle1 angle2 : Q) :
  Q2R (angle_diff angle1 angle2)
  = Mavextra.angle_diff (Q2R angle1) (Q2R angle2).
Proof.
  unfold angle_diff, Mavextra.angle_diff; cbv zeta.
  rewrite lt_step, gt_step, Q2R_minus, Q2R_180, Q2R_m180. reflexivity.
Qed.

Lemma wrap_360_agrees (angle : Q) :
  Q2R (wrap_360 angle) = Mavextra.wrap_360 (Q2R angle).
Proof.
  unfold wrap_360, Mavextra.wrap_360; cbv zeta.
  rewrite lt_step, gt_step, Q2R_360, Q2R_0. reflexivity.
Qed.

Lemma wrap_180_agrees (angle : Q) :
  Q2R (wrap_180 angle) = Mavextra.wrap_180 (Q2R angle).
Proof.
  unfold wrap_180, Mavextra.wrap_180; cbv zeta.
  rewrite lt_step, gt_step, Q2R_180, Q2R_m180. reflexivity.
Qed.

End MavextraQ.

(** ** More of [mymavextra.js]: [named], and how the angle helpers behave
    at their bounds and compose. *)

Module MavextraFacts.

Import Mavextra.

Local Open Scope R_scope.

(** The message [named] reads: a NAMED_VALUE_FLOAT with its [name] and
    [value] fields. *)
Record NAMED_VALUE_FLOAT : Type := mkNamedValueFloat {
  name : string;
  value : R
}.

(** [window.named = (NAMED_VALUE_FLOAT, key) => ...]: the value when the
    name starts with [key], [null] otherwise. *)
Definition named (m : NAMED_VALUE_FLOAT) (key : string) : option R :=
  if String.prefix key (name m) then Some (value m) else None.

Example named_prefix_hit :
  named (mkNamedValueFloat "ALT2" 5) "ALT" = Some 5.
Proof. reflexivity. Qed.

Example named_miss :
  named (mkNamedValueFloat "ALT2" 5) "ALT3" = None.
Proof. reflexivity. Qed.

(** [startsWith] is "the name is the key followed by something". *)
Lemma prefix_iff_append (key s : string) :
  String.prefix key s = true ↔ ∃ rest, s = (key ++ rest)%string.
Proof.
  revert s. induction key as [| c key IH]; intros s.
  - split; [intros _; exists s; reflexivity |].
    intros _. destruct s; reflexivity.
  - destruct s as [| d s]; simpl.
    + split; [discriminate |]. intros [rest Hrest]. discriminate.
    + destruct (Ascii.ascii_dec c d) as [-> | Hne].
      * rewrite IH. split; intros [rest Hrest]; exists rest.
        -- rewrite Hrest. reflexivity.
        -- injection Hrest as Hrest. exact Hrest.
      * split; [discriminate |]. intros [rest Hrest].
        injection Hrest as Hcd _. congruence.
Qed.

Lemma append_empty (s : string) : (s ++ "")%string = s.
Proof.
  induction s as [| c s IH]; [reflexivity |].
  change (String c (s ++ "")%string = String c s). rewrite IH. reflexivity.
Qed.

Lemma append_append (s t u : string) :
  ((s ++ t) ++ u)%string = (s ++ (t ++ u))%string.
Proof.
  induction s as [| c s IH]; [reflexivity |].
  change (String c ((s ++ t) ++ u)%string = String c (s ++ (t ++ u))%string).
  rewrite IH. reflexivity.
Qed.

Lemma length_append_le (s t : string) :
  (String.length s <= String.length (s ++ t)%string)%nat.
Proof.
  induction s as [| c s IH]; [simpl; lia |].
  change (S (String.length s) <= S (String.length (s ++ t)%string))%nat. lia.
Qed.

(** Absolute values against linear arithmetic. *)
Ltac abs_cases :=
  unfold Rabs;
  repeat match goal with
         | |- context [Rcase_abs ?x] => destruct (Rcase_abs x)
         end;
  try lra.

(** A value within half a turn of zero is no longer than any value a
    whole number of turns away from it. *)
Lemma half_turn_least (r : R) (m : Z) :
  -180 <= r <= 180 → Rabs r <= Rabs (r + 360 * IZR m).
Proof.
  intros Hr.
  destruct (Z.eq_dec m 0%Z) as [-> | Hm].
  - replace (r + 360 * 0) with r by lra. lra.
  - destruct (Z_lt_le_dec m 0%Z) as [Hneg | Hpos].
    + assert (IZR m <= -1) by (apply IZR_le; lia). abs_cases.
    + assert (1 <= IZR m) by (apply IZR_le; lia). abs_cases.
Qed.

(** Open one helper and split on its two comparisons, inner first. *)
Ltac open_helper f :=
  unfold f; cbv zeta;
  repeat match goal with
         | |- context [Rgt_dec ?a ?b] => destruct (Rgt_dec a b)
         | |- context [Rlt_dec ?a ?b] => destruct (Rlt_dec a b)
         end.

Lemma wrap_360_fixed_iff (x : R) : wrap_360 x = x ↔ 0 <= x <= 360.
Proof. open_helper wrap_360; split; intros; lra. Qed.

Lemma wrap_360_in_turn_iff (x : R) :
  0 <= wrap_360 x <= 360 ↔ -360 <= x <= 720.
Proof. open_helper wrap_360; split; intros; lra. Qed.

Lemma wrap_180_fixed_iff (x : R) : wrap_180 x = x ↔ -180 <= x <= 180.
Proof. open_helper wrap_180; split; intros; lra. Qed.

Lemma wrap_180_in_half_turn_iff (x : R) :
  -180 <= wrap_180 x <= 180 ↔ -540 <= x <= 540.
Proof. open_helper wrap_180; split; intros; lra. Qed.

(** The result of [angle_diff] is within half a turn of zero when the
    plain difference is within a turn and a half, and is then that
    difference moved by -1, 0 or 1 turns. *)
Lemma angle_diff_window (angle1 angle2 : R) :
  -540 <= angle1 - angle2 <= 540 →
  -180 <= angle_diff angle1 angle2 <= 180
  ∧ ∃ j : Z, (-1 <= j <= 1)%Z
             ∧ angle_diff angle1 angle2 = angle1 - angle2 + 360 * IZR j.
Proof.
  intros H. open_helper angle_diff; (split; [lra |]).
  - exists (-1)%Z. split; [lia | lra].
  - exists (-1)%Z. split; [lia | lra].
  - exists 1%Z. split; [lia | lra].
  - exists 0%Z. split; [lia | lra].
Qed.

(** X1. The result of [angle_diff] lies in [-180, 180] exactly when the
    plain difference lies in [-540, 540]; it is always the plain
    difference, or that less or plus one full turn. *)
Theorem angle_diff_half_turn_iff (angle1 angle2 : R) :
  (-180 <= angle_diff angle1 angle2 <= 180 ↔ -540 <= angle1 - angle2 <= 540)
  ∧ (angle_diff angle1 angle2 = angle1 - angle2
     ∨ angle_diff angle1 angle2 = angle1 - angle2 - 360
     ∨ angle_diff angle1 angle2 = angle1 - angle2 + 360).
Proof.
  open_helper angle_diff; (split; [split; intros; lra |]);
    first [exfalso; lra | left; lra | right; left; lra | right; right; lra].
Qed.

(** X2. When the plain difference is within a turn and a half of zero,
    [angle_diff] returns one of the values that differ from it by whole
    turns (by -1, 0 or 1 turn), and among all of them the one of least
    magnitude: the shortest signed rotation. *)
Theorem angle_diff_least_magnitude (angle1 angle2 : R)
    (Hnear : -540 <= angle1 - angle2 <= 540) :
  (∃ j : Z, (-1 <= j <= 1)%Z
            ∧ angle_diff angle1 angle2 = angle1 - angle2 + 360 * IZR j)
  ∧ (∀ k : Z,
       Rabs (angle_diff angle1 angle2) <= Rabs (angle1 - angle2 + 360 * IZR k)).
Proof.
  destruct (angle_diff_window angle1 angle2 Hnear) as (Hr & j & Hj1 & Hj).
  split; [exists j; split; assumption |].
  intros k.
  replace (angle1 - angle2 + 360 * IZR k)
    with (angle_diff angle1 angle2 + 360 * IZR (k - j))
    by (rewrite minus_IZR, Hj; lra).
  apply half_turn_least. exact Hr.
Qed.

Lemma angle_diff_least_magnitude_witness :
  -540 <= 350 - 10 <= 540
  ∧ (∃ j : Z, (-1 <= j <= 1)%Z ∧ angle_diff 350 10 = 350 - 10 + 360 * IZR j)
  ∧ Rabs (angle_diff 350 10) <= Rabs (350 - 10 + 360 * IZR (-1)).
Proof.
  assert (Hnear : -540 <= 350 - 10 <= 540) by lra.
  split; [exact Hnear |].
  split; [exact (proj1 (angle_diff_least_magnitude 350 10 Hnear)) |].
  exact (proj2 (angle_diff_least_magnitude 350 10 Hnear) (-1)%Z).
Defined.

(** X3. [angle_diff] never returns something longer than the plain
    difference: it returns the plain difference itself when that lies in
    [-180, 180], and whenever it returns something else, that is strictly
    shorter. *)
Theorem angle_diff_plain_or_shorter (angle1 angle2 : R) :
  Rabs (angle_diff angle1 angle2) <= Rabs (angle1 - angle2)
  ∧ (-180 <= angle1 - angle2 <= 180 →
     angle_diff angle1 angle2 = angle1 - angle2)
  ∧ (angle_diff angle1 angle2 ≠ angle1 - angle2 →
     Rabs (angle_diff angle1 angle2) < Rabs (angle1 - angle2)).
Proof.
  open_helper angle_diff; (split; [| split]); intros; abs_cases.
Qed.

Lemma angle_diff_plain_or_shorter_witness :
  -180 <= 100 - 30 <= 180 ∧ angle_diff 100 30 = 100 - 30.
Proof.
  assert (H : -180 <= 100 - 30 <= 180) by lra.
  split; [exact H |].
  exact (proj1 (proj2 (angle_diff_plain_or_shorter 100 30)) H).
Defined.

(** The round trips below in exact arithmetic, for any angles in range. *)
Lemma round_trip_exact (angle1 angle2 : R) :
  0 < angle1 < 360 → 0 <= angle2 <= 360 →
  wrap_360 (angle2 + angle_diff angle1 angle2) = angle1.
Proof. intros H1 H2. open_helper angle_diff; open_helper wrap_360; lra. Qed.

Lemma round_trip_from_0 (angle2 : R) :
  180 < angle2 <= 360 → wrap_360 (angle2 + angle_diff 0 angle2) = 360.
Proof. intros H. open_helper angle_diff; open_helper wrap_360; lra. Qed.

Lemma round_trip_from_360 (angle2 : R) :
  0 <= angle2 < 180 → wrap_360 (angle2 + angle_diff 360 angle2) = 0.
Proof. intros H. open_helper angle_diff; open_helper wrap_360; lra. Qed.

Lemma wrap_180_of_wrap_360 (angle : R) :
  -180 < angle <= 180 → wrap_180 (wrap_360 angle) = angle.
Proof. intros H. open_helper wrap_360; open_helper wrap_180; lra. Qed.

(** Bounds on whole numbers, read as bounds on the reals they denote. *)
Ltac whole_bounds :=
  repeat match goal with
         | H : (_ <= _ <= _)%Z |- _ => destruct H
         | H : (_ < _ < _)%Z |- _ => destruct H
         | H : (_ <= _ < _)%Z |- _ => destruct H
         | H : (_ < _ <= _)%Z |- _ => destruct H
         | H : (_ <= _)%Z |- _ => apply IZR_le in H
         | H : (_ < _)%Z |- _ => apply IZR_lt in H
         end.

(** X4. For whole-degree headings [0 < angle1 < 360] and
    [0 <= angle2 <= 360], turning [angle2] by [angle_diff angle1 angle2]
    and wrapping into a full turn gives [angle1] back.  (Whole degrees are
    the angles on which every step of the two helpers is exact in the
    code's own arithmetic as well.) *)
Theorem angle_diff_round_trip (angle1 angle2 : Z)
    (H1 : (0 < angle1 < 360)%Z) (H2 : (0 <= angle2 <= 360)%Z) :
  wrap_360 (IZR angle2 + angle_diff (IZR angle1) (IZR angle2)) = IZR angle1.
Proof. whole_bounds. apply round_trip_exact; lra. Qed.

Lemma angle_diff_round_trip_witness :
  (0 < 10 < 360)%Z ∧ (0 <= 350 <= 360)%Z
  ∧ wrap_360 (350 + angle_diff 10 350) = 10.
Proof.
  assert (H1 : (0 < 10 < 360)%Z) by lia.
  assert (H2 : (0 <= 350 <= 360)%Z) by lia.
  split; [exact H1 |]. split; [exact H2 |].
  exact (angle_diff_round_trip 10 350 H1 H2).
Defined.

(** X5. At the two ends of the full turn the round trip lands on the other
    name of north, for whole-degree [angle2]: from [angle1 = 0] and
    [180 < angle2 <= 360] it gives 360, from [angle1 = 360] and
    [0 <= angle2 < 180] it gives 0. *)
Theorem angle_diff_round_trip_ends (angle2 : Z) :
  ((180 < angle2 <= 360)%Z →
   wrap_360 (IZR angle2 + angle_diff 0 (IZR angle2)) = 360)
  ∧ ((0 <= angle2 < 180)%Z →
     wrap_360 (IZR angle2 + angle_diff 360 (IZR angle2)) = 0).
Proof.
  split; intros H; whole_bounds.
  - apply round_trip_from_0; lra.
  - apply round_trip_from_360; lra.
Qed.

Lemma angle_diff_round_trip_ends_witness :
  (180 < 270 <= 360)%Z ∧ wrap_360 (270 + angle_diff 0 270) = 360
  ∧ (0 <= 90 < 180)%Z ∧ wrap_360 (90 + angle_diff 360 90) = 0.
Proof.
  assert (Ha : (180 < 270 <= 360)%Z) by lia.
  assert (Hb : (0 <= 90 < 180)%Z) by lia.
  split; [exact Ha |].
  split; [exact (proj1 (angle_diff_round_trip_ends 270) Ha) |].
  split; [exact Hb |].
  exact (proj2 (angle_diff_round_trip_ends 90) Hb).
Defined.

(** X6. For angles of magnitude up to 2^53 (beyond which a double no longer
    tells an angle from the angle a turn away), the fixed points of
    [wrap_360] are exactly [0, 360], both ends included, and applying it
    twice is the same as applying it once exactly on [-360, 720]. *)
Theorem wrap_360_idempotent_iff (angle : R)
    (Hbound : -9007199254740992 <= angle <= 9007199254740992) :
  (wrap_360 angle = angle ↔ 0 <= angle <= 360)
  ∧ (wrap_360 (wrap_360 angle) = wrap_360 angle ↔ -360 <= angle <= 720).
Proof.
  split; [apply wrap_360_fixed_iff |].
  rewrite wrap_360_fixed_iff. apply wrap_360_in_turn_iff.
Qed.

Lemma wrap_360_idempotent_iff_witness :
  -9007199254740992 <= 400 <= 9007199254740992
  ∧ wrap_360 400 ≠ 400
  ∧ wrap_360 (wrap_360 400) = wrap_360 400.
Proof.
  assert (Hbound : -9007199254740992 <= 400 <= 9007199254740992) by lra.
  split; [exact Hbound |].
  split.
  - intros Hfix.
    apply (proj1 (proj1 (wrap_360_idempotent_iff 400 Hbound))) in Hfix. lra.
  - apply (proj2 (proj2 (wrap_360_idempotent_iff 400 Hbound))). lra.
Defined.

(** X7. The result of [wrap_180] lies in [-180, 180] exactly for the angles
    of [-540, 540].  For angles of magnitude up to 2^53 its fixed points
    are exactly [-180, 180], both ends included, and applying it twice is
    the same as applying it once exactly on [-540, 540]. *)
Theorem wrap_180_idempotent_iff (angle : R) :
  (-180 <= wrap_180 angle <= 180 ↔ -540 <= angle <= 540)
  ∧ (-9007199254740992 <= angle <= 9007199254740992 →
     (wrap_180 angle = angle ↔ -180 <= angle <= 180)
     ∧ (wrap_180 (wrap_180 angle) = wrap_180 angle ↔ -540 <= angle <= 540)).
Proof.
  split; [apply wrap_180_in_half_turn_iff |].
  intros _. split; [apply wrap_180_fixed_iff |].
  rewrite wrap_180_fixed_iff. apply wrap_180_in_half_turn_iff.
Qed.

Lemma wrap_180_idempotent_iff_witness :
  -9007199254740992 <= 600 <= 9007199254740992
  ∧ wrap_180 (wrap_180 600) ≠ wrap_180 600.
Proof.
  assert (Hbound : -9007199254740992 <= 600 <= 9007199254740992) by lra.
  split; [exact Hbound |].
  intros Hidem.
  apply (proj1 (proj2 (proj2 (wrap_180_idempotent_iff 600) Hbound))) in Hidem.
  lra.
Defined.

(** X8. The two conventions convert into each other without loss:
    [wrap_360] undoes [wrap_180] on [0, 360), and [wrap_180] undoes
    [wrap_360] on the whole degrees of (-180, 180]; at the excluded ends 360
    comes back as 0 and -180 as 180. *)
Theorem wrap_conventions_round_trip (angle : R) (degrees : Z) :
  (0 <= angle < 360 → wrap_360 (wrap_180 angle) = angle)
  ∧ ((-180 < degrees <= 180)%Z →
     wrap_180 (wrap_360 (IZR degrees)) = IZR degrees)
  ∧ wrap_360 (wrap_180 360) = 0
  ∧ wrap_180 (wrap_360 (-180)) = 180.
Proof.
  split; [| split; [| split]].
  - intros H. open_helper wrap_180; open_helper wrap_360; lra.
  - intros H. whole_bounds. apply wrap_180_of_wrap_360; lra.
  - open_helper wrap_180; open_helper wrap_360; lra.
  - open_helper wrap_360; open_helper wrap_180; lra.
Qed.

Lemma wrap_conventions_round_trip_witness :
  0 <= 200 < 360 ∧ wrap_360 (wrap_180 200) = 200
  ∧ (-180 < -160 <= 180)%Z ∧ wrap_180 (wrap_360 (-160)) = -160.
Proof.
  assert (Ha : 0 <= 200 < 360) by lra.
  assert (Hb : (-180 < -160 <= 180)%Z) by lia.
  split; [exact Ha |].
  split; [exact (proj1 (wrap_conventions_round_trip 200 (-160)) Ha) |].
  split; [exact Hb |].
  exact (proj1 (proj2 (wrap_conventions_round_trip 200 (-160))) Hb).
Defined.

Lemma named_hit (m : NAMED_VALUE_FLOAT) (key : string) :
  (∃ rest, name m = (key ++ rest)%string) → named m key = Some (value m).
Proof.
  intros Hk. unfold named.
  rewrite (proj2 (prefix_iff_append key (name m)) Hk). reflexivity.
Qed.

Lemma named_some (m : NAMED_VALUE_FLOAT) (key : string) (v : R) :
  named m key = Some v → v = value m ∧ ∃ rest, name m = (key ++ rest)%string.
Proof.
  unfold named. destruct (String.prefix key (name m)) eqn:E; [| discriminate].
  intros Hv. injection Hv as <-.
  split; [reflexivity | apply prefix_iff_append, E].
Qed.

Lemma named_no_match (m : NAMED_VALUE_FLOAT) (key : string) :
  (¬ ∃ rest, name m = (key ++ rest)%string) → named m key = None.
Proof.
  intros Hk. unfold named.
  destruct (String.prefix key (name m)) eqn:E; [| reflexivity].
  exfalso. apply Hk, prefix_iff_append, E.
Qed.

(** X9. [named] answers with the message's value exactly when the name is
    the key followed by anything, and with [null] otherwise; so the empty
    key and the full name always match, and a key matches every name it
    starts. *)
Theorem named_matches_prefix (m : NAMED_VALUE_FLOAT) (key : string) :
  (∀ v, named m key = Some v
        ↔ v = value m ∧ ∃ rest, name m = (key ++ rest)%string)
  ∧ (named m key = None ↔ ¬ ∃ rest, name m = (key ++ rest)%string)
  ∧ named m "" = Some (value m)
  ∧ named m (name m) = Some (value m).
Proof.
  split; [| split; [| split]].
  - intros v. split; [apply named_some |].
    intros [-> Hk]. apply named_hit, Hk.
  - split; [| apply named_no_match].
    intros Hnone Hk. rewrite (named_hit m key Hk) in Hnone. discriminate.
  - apply named_hit. exists (name m). reflexivity.
  - apply named_hit. exists EmptyString. rewrite append_empty. reflexivity.
Qed.

(** X10. A key that matches keeps matching when shortened, and a key
    longer than the name never matches. *)
Theorem named_shorter_key (m : NAMED_VALUE_FLOAT) (key more : string) :
  (∀ v, named m (key ++ more)%string = Some v → named m key = Some v)
  ∧ ((String.length (name m) < String.length key)%nat → named m key = None).
Proof.
  split.
  - intros v Hv. apply named_some in Hv as [-> [rest Hrest]].
    apply named_hit. exists (more ++ rest)%string.
    rewrite Hrest. apply append_append.
  - intros Hlen. apply named_no_match. intros [rest Hrest].
    rewrite Hrest in Hlen.
    pose proof (length_append_le key rest). lia.
Qed.

(** X11. [wrap_180] is odd: negating the angle negates the result, for
    every angle.  [wrap_360] mirrors instead: for [0 < angle <= 360] the
    result for [- angle] is [360] less the result for [angle]. *)
Theorem wrap_180_odd (angle : R) :
  wrap_180 (- angle) = - wrap_180 angle
  ∧ (0 < angle <= 360 → wrap_360 (- angle) = 360 - wrap_360 angle).
Proof.
  split.
  - open_helper wrap_180; lra.
  - intros H. open_helper wrap_360; lra.
Qed.

Lemma wrap_180_odd_witness :
  0 < 90 <= 360 ∧ wrap_360 (- 90) = 360 - wrap_360 90.
Proof.
  assert (H : 0 < 90 <= 360) by lra.
  split; [exact H |].
  exact (proj2 (wrap_180_odd 90) H).
Defined.

End MavextraFacts.

(** ** Type Inference Engine (spec 4.2) *)

Module TypeInference.

(** A message type tag is the protocol's name of a record schema. *)
Definition tag : Type := string.

(** [kw in s]: the test the scan runs, [kw] met as a contiguous run of
    characters of [s]. *)
Fixpoint contains (kw s : string) : bool :=
  String.prefix kw s ||
  match s with
  | EmptyString => false
  | String _ s' => contains kw s'
  end.

(** What the test is for, said without it: the question is some text, then
    the keyword, then some more text. *)
Definition occurs (kw s : string) : Prop :=
  ∃ before after, s = (before ++ (kw ++ after))%string.

(** Modelled from the spec: a row of the keyword-to-type lookup table of 4.2
    (the table of [_infer_message_types], not among the source files): a
    keyword and the type tags it stands for, at least one. *)
Record Row : Type := mkRow {
  keyword : string;
  first_tag : tag;
  more_tags : list tag
}.

Definition tags (r : Row) : list tag := first_tag r :: more_tags r.

(** The inference routine of the chat use case ([_infer_message_types]) is
    not among the source files; it is modelled as 4.2 words it.  The lookup
    table is a parameter.  The spec does not say that letter case is
    ignored, so a keyword is looked for as the table spells it. *)
Section Infer.

Variable table : list Row.

(** Modelled from the spec: the keyword scan of [_infer_message_types].
    The tags of the rows whose keyword the question contains, with
    repetitions, in the order the scan meets them. *)
Definition hits (questionText : string) : list tag :=
  flat_map
    (fun r => if contains (keyword r) questionText then tags r else [])
    table.

(** Modelled from the spec: insertion into the ordered set of
    [_infer_message_types].  A tag already present is not added again, a
    new one goes to the end. *)
Definition add_tag (seen : list tag) (t : tag) : list tag :=
  if bool_decide (t ∈ seen) then seen else seen ++ [t].

(** Modelled from the spec: [infer(questionText)] of 4.2
    ([_infer_message_types], not among the source files): every keyword hit
    contributes its tags, duplicates removed, first-seen order preserved. *)
Definition infer (questionText : string) : list tag :=
  fold_left add_tag (hits questionText) [].

(** The question contains at least one keyword of the table. *)
Definition recognized (questionText : string) : Prop :=
  ∃ r, r ∈ table ∧ occurs (keyword r) questionText.

End Infer.

(** The scan said as a relation, row by row in table order: a row whose
    keyword occurs in the question gives its tags, any other row gives
    nothing. *)
Inductive scanned (questionText : string) : list Row → list tag → Prop :=
| scanned_end : scanned questionText [] []
| scanned_hit r rows l :
    occurs (keyword r) questionText →
    scanned questionText rows l →
    scanned questionText (r :: rows) (tags r ++ l)
| scanned_skip r rows l :
    ¬ occurs (keyword r) questionText →
    scanned questionText rows l →
    scanned questionText (r :: rows) l.

(** "Duplicates removed, first-seen order preserved", said on the list
    itself: each tag stays where it is first met and its later repetitions
    go. *)
Fixpoint first_seen (l : list tag) : list tag :=
  match l with
  | [] => []
  | t :: rest => t :: filter (fun u => u ≠ t) (first_seen rest)
  end.

(** Modelled from the spec: the vocabulary of 4.2 as the spec spells it,
    with the tags the design notes document for it (AGENT_BUILDING.md,
    "Dynamic Tool-Like Data Retrieval"); the radio keywords, whose tags are
    documented nowhere, are left out. *)
Definition documented_table : list Row :=
  [ mkRow "altitude" "GPS_RAW_INT" ["GLOBAL_POSITION_INT"];
    mkRow "position" "GPS_RAW_INT" ["GLOBAL_POSITION_INT"];
    mkRow "GPS" "GPS_RAW_INT" [];
    mkRow "battery" "BATTERY_STATUS" [];
    mkRow "temperature" "BATTERY_STATUS" [];
    mkRow "error" "STATUSTEXT" [];
    mkRow "critical" "STATUSTEXT" [] ]%string.

Example infer_highest_altitude :
  infer documented_table "What was the highest altitude?"
  = ["GPS_RAW_INT"; "GLOBAL_POSITION_INT"]%string.
Proof. vm_compute. reflexivity. Qed.

Example infer_documented_questions :
  map (infer documented_table)
    ["Highest altitude?"; "GPS signal lost?"; "Battery temperature?";
     "Critical errors?"]%string
  = [ ["GPS_RAW_INT"; "GLOBAL_POSITION_INT"]; ["GPS_RAW_INT"];
      ["BATTERY_STATUS"]; ["STATUSTEXT"] ]%string.
Proof. vm_compute. reflexivity. Qed.

Example infer_several_keywords :
  infer documented_table "GPS altitude when the battery error came"
  = ["GPS_RAW_INT"; "GLOBAL_POSITION_INT"; "BATTERY_STATUS"; "STATUSTEXT"]%string.
Proof. vm_compute. reflexivity. Qed.

Example infer_no_keyword :
  infer documented_table "How long was the total flight time?" = [].
Proof. vm_compute. reflexivity. Qed.

(** *** The test finds exactly the occurrences *)

Lemma contains_occurs (kw s : string) : contains kw s = true ↔ occurs kw s.
Proof.
  induction s as [| c s IH].
  - change (contains kw "") with (String.prefix kw "" || false).
    rewrite orb_false_r, MavextraFacts.prefix_iff_append. split.
    + intros [rest Hrest]. exists EmptyString, rest. exact Hrest.
    + intros (pre & post & Hs). destruct pre as [| d pre]; [| discriminate].
      exists post. exact Hs.
  - change (contains kw (String c s))
      with (String.prefix kw (String c s) || contains kw s).
    rewrite orb_true_iff, MavextraFacts.prefix_iff_append, IH. split.
    + intros [[rest Hrest] | (pre & post & Hs)].
      * exists EmptyString, rest. exact Hrest.
      * exists (String c pre), post. rewrite Hs. reflexivity.
    + intros (pre & post & Hs). destruct pre as [| d pre].
      * left. exists post. exact Hs.
      * right. exists pre, post. injection Hs as _ Hs. exact Hs.
Qed.

Lemma contains_false_not_occurs (kw s : string) :
  contains kw s = false ↔ ¬ occurs kw s.
Proof.
  rewrite <- contains_occurs. destruct (contains kw s); split; congruence.
Qed.

(** *** The ordered set built by [add_tag] *)

Section InferFacts.

Variable table : list Row.

(** Folding [add_tag] over hits only ever appends to what was seen: the
    new part has no repetition, avoids the seen part and holds exactly the
    unseen hits. *)
Lemma fold_add_tag_extends (l seen : list tag) :
  ∃ r, fold_left add_tag l seen = seen ++ r
       ∧ NoDup r
       ∧ (∀ t, t ∈ r ↔ t ∈ l ∧ t ∉ seen).
Proof.
  revert seen. induction l as [| x l IH]; intros seen; simpl.
  - exists []. rewrite app_nil_r. split; [reflexivity |].
    split; [constructor |]. intros t. split.
    + intros Ht. inversion Ht.
    + intros [Ht _]. inversion Ht.
  - unfold add_tag at 2. case_bool_decide as Hx.
    + destruct (IH seen) as (r & Hr & Hnd & Hin).
      exists r. split; [exact Hr |]. split; [exact Hnd |].
      intros t. rewrite Hin. split.
      * intros [Ht Hns]. split; [right; exact Ht | exact Hns].
      * intros [Ht Hns]. split; [| exact Hns].
        apply elem_of_cons in Ht as [-> | Ht]; [contradiction | exact Ht].
    + destruct (IH (seen ++ [x])) as (r & Hr & Hnd & Hin).
      exists (x :: r). rewrite Hr, <- app_assoc. split; [reflexivity |].
      split.
      * constructor; [| exact Hnd].
        intros Hxr. apply Hin in Hxr as [_ Hxr]. apply Hxr.
        apply elem_of_app. right. apply list_elem_of_singleton. reflexivity.
      * intros t. rewrite elem_of_cons, Hin, elem_of_cons.
        rewrite elem_of_app, list_elem_of_singleton. split.
        -- intros [-> | [Ht Hns]].
           ++ split; [left; reflexivity | exact Hx].
           ++ split; [right; exact Ht | intros Hs; apply Hns; left; exact Hs].
        -- intros [[-> | Ht] Hns]; [left; reflexivity |].
           destruct (decide (t = x)) as [-> | Hne]; [left; reflexivity |].
           right. split; [exact Ht |]. intros [Hs | Hs]; contradiction.
Qed.

(** The accumulator computes the declared ordered set: what it adds to the
    tags already seen is the first-seen list of the hits, less those. *)
Lemma fold_add_tag_first_seen (l seen : list tag) :
  fold_left add_tag l seen = seen ++ filter (fun u => u ∉ seen) (first_seen l).
Proof.
  revert seen. induction l as [| x l IH]; intros seen; simpl.
  - rewrite app_nil_r. reflexivity.
  - rewrite IH. unfold add_tag. case_bool_decide as Hx.
    + rewrite filter_cons_False by (intros Hn; apply Hn, Hx).
      rewrite list_filter_filter. f_equal.
      apply list_filter_iff. intros u. split; [| intros [Hu _]; exact Hu].
      intros Hu. split; [exact Hu |]. intros ->. contradiction.
    + rewrite filter_cons_True by exact Hx.
      rewrite <- app_assoc. simpl. do 2 f_equal.
      rewrite list_filter_filter. apply list_filter_iff. intros u.
      rewrite elem_of_app, list_elem_of_singleton. split.
      * intros Hu. split; [intros Hs | intros ->]; apply Hu; [left | right]; auto.
      * intros [Hs Hne] [Hin | Heq]; contradiction.
Qed.

Lemma filter_unseen_nil (l : list tag) :
  filter (fun u => u ∉ @nil tag) l = l.
Proof.
  induction l as [| x l IH]; [reflexivity |].
  rewrite filter_cons_True by apply not_elem_of_nil. rewrite IH. reflexivity.
Qed.

Lemma infer_first_seen_eq (q : string) :
  infer table q = first_seen (hits table q).
Proof.
  unfold infer. rewrite fold_add_tag_first_seen. simpl.
  apply filter_unseen_nil.
Qed.

Lemma infer_NoDup (q : string) : NoDup (infer table q).
Proof.
  unfold infer. destruct (fold_add_tag_extends (hits table q) []) as (r & -> & Hnd & _).
  exact Hnd.
Qed.

Lemma elem_of_infer (q : string) (t : tag) :
  t ∈ infer table q ↔ t ∈ hits table q.
Proof.
  unfold infer.
  destruct (fold_add_tag_extends (hits table q) []) as (r & -> & _ & Hin).
  simpl. rewrite Hin. split; [intros [Ht _]; exact Ht |].
  intros Ht. split; [exact Ht | apply not_elem_of_nil].
Qed.

(** First-seen order: what the scan has collected after any initial
    segment of the hits stays, in place, at the front of the result. *)
Lemma infer_first_seen (q : string) (p s : list tag) :
  hits table q = p ++ s →
  ∃ r, infer table q = fold_left add_tag p [] ++ r
       ∧ (∀ t, t ∈ r → t ∈ s ∧ t ∉ p).
Proof.
  intros Hps. unfold infer. rewrite Hps, fold_left_app.
  destruct (fold_add_tag_extends s (fold_left add_tag p [])) as (r & -> & _ & Hin).
  exists r. split; [reflexivity |].
  intros t Ht. apply Hin in Ht as [Hts Htp]. split; [exact Hts |].
  intros Hp. apply Htp.
  destruct (fold_add_tag_extends p []) as (r' & -> & _ & Hin').
  simpl. apply Hin'. split; [exact Hp | apply not_elem_of_nil].
Qed.

(** The hits are the scan of the table: the tags of the rows whose keyword
    occurs in the question, in table order. *)
Lemma hits_scanned (q : string) : scanned q table (hits table q).
Proof.
  unfold hits. induction table as [| r rows IH]; simpl.
  - constructor.
  - destruct (contains (keyword r) q) eqn:Hc.
    + apply scanned_hit; [apply contains_occurs, Hc | exact IH].
    + apply scanned_skip; [apply contains_false_not_occurs, Hc | exact IH].
Qed.

Lemma elem_of_hits (q : string) (t : tag) :
  t ∈ hits table q ↔ ∃ r, r ∈ table ∧ occurs (keyword r) q ∧ t ∈ tags r.
Proof.
  unfold hits. induction table as [| r rows IH]; simpl.
  - split; [intros Ht; inversion Ht |].
    intros (r & Hr & _). inversion Hr.
  - rewrite elem_of_app, IH. split.
    + intros [Ht | (r' & Hr' & Ho & Ht)].
      * destruct (contains (keyword r) q) eqn:Hc; [| inversion Ht].
        exists r. split; [left |]. split; [apply contains_occurs, Hc | exact Ht].
      * exists r'. split; [right; exact Hr' |]. split; assumption.
    + intros (r' & Hr' & Ho & Ht). apply elem_of_cons in Hr' as [-> | Hr'].
      * left. rewrite (proj2 (contains_occurs (keyword r) q) Ho). exact Ht.
      * right. exists r'. split; [exact Hr' |]. split; assumption.
Qed.

Lemma infer_nil_iff (q : string) : infer table q = [] ↔ ¬ recognized table q.
Proof.
  split.
  - intros Hnil (r & Hr & Ho).
    assert (Ht : first_tag r ∈ infer table q).
    { apply elem_of_infer, elem_of_hits. exists r.
      split; [exact Hr |]. split; [exact Ho | left]. }
    rewrite Hnil in Ht. inversion Ht.
  - intros Hnone. destruct (infer table q) as [| t l] eqn:Hi; [reflexivity |].
    exfalso. apply Hnone.
    assert (Ht : t ∈ infer table q) by (rewrite Hi; left).
    apply elem_of_infer, elem_of_hits in Ht as (r & Hr & Ho & _).
    exists r. split; assumption.
Qed.

End InferFacts.

(** C2. [infer] returns a duplicate-free list of tags in first-seen
    insertion order: the hits are the tags of the rows whose keyword occurs
    in the question, in table order, the result is those hits with each
    tag kept where it is first met, a tag is in the result exactly when
    such a row carries it, and what any initial segment of the hits has
    collected stays at the front.  The result is non-empty when a keyword of
    the table occurs in the question and empty when none does.  Being a
    function of the text, [infer] gives the same list whenever the text is
    the same. *)
Theorem infer_ordered_set (table : list Row) (questionText : string) :
  scanned questionText table (hits table questionText)
  ∧ infer table questionText = first_seen (hits table questionText)
  ∧ NoDup (infer table questionText)
  ∧ (∀ t, t ∈ infer table questionText
          ↔ ∃ r, r ∈ table ∧ occurs (keyword r) questionText ∧ t ∈ tags r)
  ∧ (∀ p s, hits table questionText = p ++ s →
       ∃ r, infer table questionText = fold_left add_tag p [] ++ r
            ∧ (∀ t, t ∈ r → t ∈ s ∧ t ∉ p))
  ∧ (recognized table questionText → infer table questionText ≠ [])
  ∧ (¬ recognized table questionText → infer table questionText = [])
  ∧ (∀ again, again = questionText →
       infer table again = infer table questionText).
Proof.
  split; [apply hits_scanned |].
  split; [apply infer_first_seen_eq |].
  split; [apply infer_NoDup |].
  split; [intros t; rewrite elem_of_infer; apply elem_of_hits |].
  split; [apply infer_first_seen |].
  split; [| split].
  - intros Hrec Hnil. apply (proj1 (infer_nil_iff table questionText)); assumption.
  - apply infer_nil_iff.
  - intros again ->. reflexivity.
Qed.

Lemma gps_occurs : occurs "GPS" "When did the GPS signal drop?".
Proof. exists "When did the "%string, " signal drop?"%string. reflexivity. Defined.

Lemma infer_ordered_set_witness :
  recognized documented_table "When did the GPS signal drop?"
  ∧ infer documented_table "When did the GPS signal drop?" ≠ [].
Proof.
  assert (Hrec : recognized documented_table "When did the GPS signal drop?").
  { exists (mkRow "GPS" "GPS_RAW_INT" []). split; [| exact gps_occurs].
    right. right. left. }
  split; [exact Hrec |].
  pose proof (infer_ordered_set documented_table
                "When did the GPS signal drop?") as (_ & _ & _ & _ & _ & Hne & _).
  exact (Hne Hrec).
Defined.

End TypeInference.

(** ** Conversation State Machine (spec 4.5) *)

Module Conversation.

Inductive Role : Type := user | agent.

Inductive State : Type := NEW | ACTIVE | AWAITING_CLARIFICATION.

Record Turn : Type := mkTurn {
  role : Role;
  text : string;
  timestamp : nat
}.

(** Modelled from the spec: the Conversation entity
    ([backend/domain/entities/conversation.py], not among the source
    files), with the attributes the data model lists: the ordered turns, the
    optionally bound FlightLog identity and the pending-clarification flag. *)
Record Conversation : Type := mkConversation {
  conversationId : string;
  turns : list Turn;
  flightLogId : option string;
  pendingClarification : bool
}.

(** Modelled from the spec: the conversation [resolve] creates for an
    identifier the store does not know (the store is not among the source
    files): no history, no bound log, nothing pending. *)
Definition new_conversation (cid : string) : Conversation :=
  {| conversationId := cid; turns := []; flightLogId := None;
     pendingClarification := false |}.

Definition is_agent (t : Turn) : bool :=
  match role t with agent => true | user => false end.

(** Modelled from the spec: the states of 4.5, which the Conversation
    entity (not among the source files) does not store but shows through its
    attributes: awaiting clarification while the flag is up, otherwise
    active once an agent turn has completed an exchange, and new before
    that. *)
Definition state (c : Conversation) : State :=
  if pendingClarification c then AWAITING_CLARIFICATION
  else if existsb is_agent (turns c) then ACTIVE
  else NEW.

(** Modelled from the spec: [appendTurn(conversation, role, text)] of the
    Conversation entity (not among the source files).  The turn goes to the end of the history in every state; an agent turn sets
    the pending flag to the clarification flag it carries, a user turn
    leaves the flag alone.  [now] is the clock reading stamped on the
    turn. *)
Definition appendTurn (c : Conversation) (r : Role) (txt : string)
    (clarification : bool) (now : nat) : Conversation :=
  {| conversationId := conversationId c;
     turns := turns c ++ [mkTurn r txt now];
     flightLogId := flightLogId c;
     pendingClarification :=
       match r with
       | agent => clarification
       | user => pendingClarification c
       end |}.

(** The conversations the engine can hold: a fresh one, and whatever
    [appendTurn] makes of one. *)
Inductive reachable : Conversation → Prop :=
| reach_new cid : reachable (new_conversation cid)
| reach_append c r txt clarification now :
    reachable c → reachable (appendTurn c r txt clarification now).

Definition asked_to_clarify : Conversation :=
  appendTurn
    (appendTurn (new_conversation "c1") user "When did GPS drop?" false 1)
    agent "Which flight segment?" true 2.

Example fresh_is_NEW : state (new_conversation "c1") = NEW.
Proof. reflexivity. Qed.

Example question_then_clarification :
  let c := new_conversation "c1" in
  let c := appendTurn c user "When did GPS drop?" false 1 in
  let c := appendTurn c agent "Which flight segment?" true 2 in
  state c = AWAITING_CLARIFICATION ∧ length (turns c) = 2.
Proof. split; reflexivity. Qed.

Example clarification_resolved :
  let c := new_conversation "c1" in
  let c := appendTurn c user "When did GPS drop?" false 1 in
  let c := appendTurn c agent "Which flight segment?" true 2 in
  let c := appendTurn c user "The climb" false 3 in
  let c' := appendTurn c agent "At 12:04:10." false 4 in
  state c = AWAITING_CLARIFICATION ∧ state c' = ACTIVE.
Proof. split; reflexivity. Qed.

Lemma existsb_is_agent_snoc (l : list Turn) (t : Turn) :
  existsb is_agent (l ++ [t]) = existsb is_agent l || is_agent t.
Proof. rewrite existsb_app. simpl. rewrite orb_false_r. reflexivity. Qed.

Lemma state_agent_plain (c : Conversation) (txt : string) (now : nat) :
  state (appendTurn c agent txt false now) = ACTIVE.
Proof.
  unfold state, appendTurn; simpl.
  rewrite existsb_is_agent_snoc. simpl. rewrite orb_true_r. reflexivity.
Qed.

Lemma state_agent_clarifying (c : Conversation) (txt : string) (now : nat) :
  state (appendTurn c agent txt true now) = AWAITING_CLARIFICATION.
Proof. reflexivity. Qed.

Lemma state_user (c : Conversation) (txt : string) (f : bool) (now : nat) :
  state (appendTurn c user txt f now) = state c.
Proof.
  unfold state, appendTurn; simpl.
  rewrite existsb_is_agent_snoc. simpl. rewrite orb_false_r. reflexivity.
Qed.

(** A reachable conversation is new exactly while it has no agent turn, and
    the flag is only ever up after an agent turn. *)
Lemma reachable_pending_has_agent (c : Conversation) :
  reachable c → pendingClarification c = true → existsb is_agent (turns c) = true.
Proof.
  induction 1 as [cid | c r txt f now Hc IH]; simpl.
  - discriminate.
  - rewrite existsb_is_agent_snoc. destruct r; simpl.
    + intros Hp. rewrite (IH Hp). reflexivity.
    + intros _. apply orb_true_r.
Qed.

Lemma reachable_NEW_iff (c : Conversation) :
  reachable c → (state c = NEW ↔ existsb is_agent (turns c) = false).
Proof.
  intros Hc. unfold state.
  destruct (pendingClarification c) eqn:Hp.
  - rewrite (reachable_pending_has_agent c Hc Hp). split; discriminate.
  - destruct (existsb is_agent (turns c)); split; congruence.
Qed.

(** C6. In every reachable conversation [appendTurn] is accepted and puts
    the turn at the end of the history; an agent turn without the
    clarification flag takes [NEW] and [AWAITING_CLARIFICATION] to [ACTIVE],
    one with the flag leads to [AWAITING_CLARIFICATION] from any state; and
    no state is terminal: some turn always leads to a different state. *)
Theorem conversation_state_machine (c : Conversation) (Hc : reachable c) :
  (∀ r txt f now,
      reachable (appendTurn c r txt f now)
      ∧ turns (appendTurn c r txt f now) = turns c ++ [mkTurn r txt now])
  ∧ (∀ txt now,
      state c = AWAITING_CLARIFICATION ∨ state c = NEW →
      state (appendTurn c agent txt false now) = ACTIVE)
  ∧ (∀ txt now,
      state (appendTurn c agent txt true now) = AWAITING_CLARIFICATION)
  ∧ (∃ r txt f now, state (appendTurn c r txt f now) ≠ state c).
Proof.
  split; [| split; [| split]].
  - intros r txt f now. split; [constructor; exact Hc | reflexivity].
  - intros txt now _. apply state_agent_plain.
  - intros txt now. apply state_agent_clarifying.
  - destruct (state c) eqn:Hs.
    + exists agent, EmptyString, false, 0. rewrite state_agent_plain. discriminate.
    + exists agent, EmptyString, true, 0. rewrite state_agent_clarifying. discriminate.
    + exists agent, EmptyString, false, 0. rewrite state_agent_plain. discriminate.
Qed.

Lemma asked_to_clarify_reachable : reachable asked_to_clarify.
Proof. unfold asked_to_clarify. repeat constructor. Defined.

Lemma conversation_state_machine_witness :
  reachable asked_to_clarify
  ∧ state asked_to_clarify = AWAITING_CLARIFICATION
  ∧ state (appendTurn asked_to_clarify agent "At 12:04:10." false 3) = ACTIVE.
Proof.
  split; [exact asked_to_clarify_reachable |].
  split; [reflexivity |].
  apply (proj1 (proj2 (conversation_state_machine
                         asked_to_clarify asked_to_clarify_reachable))).
  left. reflexivity.
Defined.

End Conversation.

(** ** Anomaly Analyzer cache (spec 4.3) *)

Module Anomaly.

(** A field value of a telemetry record: numeric or text. *)
Inductive Value : Type :=
| VNum (n : Z)
| VStr (s : string).

Record TelemetryMessage : Type := mkMessage {
  messageType : string;
  timestamp : nat;
  fields : gmap string Value
}.

Record FlightLog : Type := mkFlightLog {
  logId : string;
  filename : string;
  messages : list TelemetryMessage
}.

Inductive Status : Type := nominal | anomalies_detected | insufficient_data.

Record AnomalySummary : Type := mkSummary {
  status : Status;
  counts : gmap string nat;
  examples : gmap string (list string);
  altitudeRange : option (Z * Z)
}.

(** The anomaly service ([backend/application/services/anomaly_service.py])
    is not among the source files.  Running its heuristics is kept apart
    from the service's own steps: a computation is either done with a
    result, or runs the heuristics on some messages and goes on with the
    summary they give.  The service cannot obtain a summary of messages in
    any other way, so the runs a computation makes are the runs of the
    heuristics, counted where they happen. *)
Inductive Computation (A : Type) : Type :=
| Done (a : A)
| RunHeuristics (msgs : list TelemetryMessage)
                (next : AnomalySummary → Computation A).

Arguments Done {A} a.
Arguments RunHeuristics {A} msgs next.

Fixpoint bind {A B : Type} (c : Computation A) (f : A → Computation B)
    : Computation B :=
  match c with
  | Done a => f a
  | RunHeuristics msgs next => RunHeuristics msgs (fun s => bind (next s) f)
  end.

(** Carrying a computation out against the heuristics [analyze]: its
    result, and how many times the heuristics ran (the computation counter
    of the tests). *)
Fixpoint perform {A : Type} (analyze : list TelemetryMessage → AnomalySummary)
    (c : Computation A) : A * nat :=
  match c with
  | Done a => (a, 0)
  | RunHeuristics msgs next =>
      let r := perform analyze (next (analyze msgs)) in
      (fst r, S (snd r))
  end.

(** Modelled from the spec: [summarize(flightLog)] of the anomaly service
    (not among the source files), the memoized entry point of 4.3: computed
    lazily on the first request for an identity, retained afterwards, the
    cache key being the FlightLog identity.  It returns the summary and the
    cache to go on with. *)
Definition summarize (log : FlightLog) (cache : gmap string AnomalySummary)
    : Computation (AnomalySummary * gmap string AnomalySummary) :=
  match cache !! logId log with
  | Some s => Done (s, cache)
  | None =>
      RunHeuristics (messages log)
        (fun s => Done (s, <[logId log := s]> cache))
  end.

(** Serving a sequence of requests, oldest first; the result is the cache
    they leave. *)
Fixpoint serve (requests : list FlightLog) (cache : gmap string AnomalySummary)
    : Computation (gmap string AnomalySummary) :=
  match requests with
  | [] => Done cache
  | log :: rest => bind (summarize log cache) (fun r => serve rest (snd r))
  end.

Section Run.

Variable analyze : list TelemetryMessage → AnomalySummary.

Definition result {A : Type} (c : Computation A) : A := fst (perform analyze c).

Definition runs {A : Type} (c : Computation A) : nat := snd (perform analyze c).

End Run.

(** The identities a sequence of requests names. *)
Definition identities (requests : list FlightLog) : gset string :=
  list_to_set (logId <$> requests).

(** A stand-in for the heuristics, to run the cache on concrete logs. *)
Definition sample_analyze (msgs : list TelemetryMessage) : AnomalySummary :=
  {| status := match msgs with [] => insufficient_data | _ :: _ => nominal end;
     counts := ∅; examples := ∅; altitudeRange := None |}.

Definition log_a : FlightLog :=
  {| logId := "a"; filename := "a.bin";
     messages := [mkMessage "GPS_RAW_INT" 0 ∅] |}.

Definition log_b : FlightLog :=
  {| logId := "b"; filename := "b.bin"; messages := [] |}.

(** Another record presented under the identity of [log_a]. *)
Definition log_a_again : FlightLog :=
  {| logId := "a"; filename := "copy.bin"; messages := [] |}.

Example summarize_twice_runs_once :
  runs sample_analyze (serve [log_a; log_a] ∅) = 1.
Proof. reflexivity. Qed.

Example summarize_interleaved :
  runs sample_analyze (serve [log_a; log_b; log_a; log_b; log_a_again] ∅) = 2.
Proof. reflexivity. Qed.

Example summarize_same_identity_retained :
  status (fst (result sample_analyze
                 (summarize log_a_again
                    (result sample_analyze (serve [log_a] ∅)))))
  = nominal.
Proof. reflexivity. Qed.

Section MemoFacts.

Variable analyze : list TelemetryMessage → AnomalySummary.

Lemma perform_bind {A B : Type} (c : Computation A) (f : A → Computation B) :
  perform analyze (bind c f)
  = (fst (perform analyze (f (fst (perform analyze c)))),
     snd (perform analyze c) + snd (perform analyze (f (fst (perform analyze c))))).
Proof.
  induction c as [a | msgs next IH]; simpl.
  - destruct (perform analyze (f a)). reflexivity.
  - rewrite IH. reflexivity.
Qed.

Lemma summarize_hit (log : FlightLog) (c : gmap string AnomalySummary)
    (s : AnomalySummary) :
  c !! logId log = Some s → perform analyze (summarize log c) = ((s, c), 0).
Proof. intros H. unfold summarize. rewrite H. reflexivity. Qed.

Lemma summarize_miss (log : FlightLog) (c : gmap string AnomalySummary) :
  c !! logId log = None →
  perform analyze (summarize log c)
  = ((analyze (messages log), <[logId log := analyze (messages log)]> c), 1).
Proof. intros H. unfold summarize. rewrite H. reflexivity. Qed.

(** What a call returns is what the cache holds for the identity
    afterwards. *)
Lemma summarize_stores (log : FlightLog) (c : gmap string AnomalySummary) :
  snd (result analyze (summarize log c)) !! logId log
  = Some (fst (result analyze (summarize log c))).
Proof.
  unfold result. destruct (c !! logId log) as [s |] eqn:H.
  - rewrite (summarize_hit _ _ _ H). exact H.
  - rewrite (summarize_miss _ _ H). simpl. apply lookup_insert_eq.
Qed.

(** Entries are retained: no call replaces or drops one. *)
Lemma summarize_retains (log : FlightLog) (c : gmap string AnomalySummary)
    (i : string) (s : AnomalySummary) :
  c !! i = Some s → snd (result analyze (summarize log c)) !! i = Some s.
Proof.
  intros Hi. unfold result. destruct (c !! logId log) as [s' |] eqn:H.
  - rewrite (summarize_hit _ _ _ H). exact Hi.
  - rewrite (summarize_miss _ _ H). simpl.
    rewrite lookup_insert_ne; [exact Hi |]. intros Heq. rewrite Heq in H. congruence.
Qed.

Lemma result_serve_cons (log : FlightLog) (rest : list FlightLog)
    (c : gmap string AnomalySummary) :
  result analyze (serve (log :: rest) c)
  = result analyze (serve rest (snd (result analyze (summarize log c)))).
Proof. unfold result. simpl. rewrite perform_bind. reflexivity. Qed.

Lemma runs_serve_cons (log : FlightLog) (rest : list FlightLog)
    (c : gmap string AnomalySummary) :
  runs analyze (serve (log :: rest) c)
  = runs analyze (summarize log c)
    + runs analyze (serve rest (snd (result analyze (summarize log c)))).
Proof. unfold runs, result. simpl. rewrite perform_bind. reflexivity. Qed.

Lemma result_serve_app (xs ys : list FlightLog) (c : gmap string AnomalySummary) :
  result analyze (serve (xs ++ ys) c)
  = result analyze (serve ys (result analyze (serve xs c))).
Proof.
  revert c. induction xs as [| log xs IH]; intros c; [reflexivity |].
  rewrite <- app_comm_cons, !result_serve_cons. apply IH.
Qed.

Lemma serve_retains (requests : list FlightLog) (c : gmap string AnomalySummary)
    (i : string) (s : AnomalySummary) :
  c !! i = Some s → result analyze (serve requests c) !! i = Some s.
Proof.
  revert c. induction requests as [| log rest IH]; intros c Hi.
  - exact Hi.
  - rewrite result_serve_cons. apply IH, summarize_retains, Hi.
Qed.

Lemma summarize_dom (log : FlightLog) (c : gmap string AnomalySummary) :
  dom (snd (result analyze (summarize log c))) = dom c ∪ {[logId log]}.
Proof.
  unfold result. destruct (c !! logId log) as [s |] eqn:H.
  - rewrite (summarize_hit _ _ _ H). simpl.
    assert (logId log ∈ dom c) by (apply elem_of_dom; eauto).
    set_solver.
  - rewrite (summarize_miss _ _ H). simpl. rewrite dom_insert_L. set_solver.
Qed.

Lemma serve_dom (requests : list FlightLog) (c : gmap string AnomalySummary) :
  dom (result analyze (serve requests c)) = dom c ∪ identities requests.
Proof.
  revert c. induction requests as [| log rest IH]; intros c.
  - unfold identities. simpl. set_solver.
  - rewrite result_serve_cons, IH, summarize_dom. unfold identities. simpl.
    set_solver.
Qed.

(** Every run of the heuristics adds one identity to the cache. *)
Lemma summarize_runs (log : FlightLog) (c : gmap string AnomalySummary) :
  size (dom c) + runs analyze (summarize log c)
  = size (dom (snd (result analyze (summarize log c)))).
Proof.
  unfold runs, result. destruct (c !! logId log) as [s |] eqn:H.
  - rewrite (summarize_hit _ _ _ H). simpl. lia.
  - rewrite (summarize_miss _ _ H). simpl.
    rewrite dom_insert_L, size_union, size_singleton; [lia |].
    apply disjoint_singleton_l, not_elem_of_dom. exact H.
Qed.

Lemma serve_runs (requests : list FlightLog) (c : gmap string AnomalySummary) :
  size (dom c) + runs analyze (serve requests c)
  = size (dom (result analyze (serve requests c))).
Proof.
  revert c. induction requests as [| log rest IH]; intros c.
  - unfold runs, result. simpl. lia.
  - rewrite runs_serve_cons, result_serve_cons, <- IH, <- summarize_runs. lia.
Qed.

(** Whatever the cache holds was put there by a run of the heuristics on
    the messages of a log requested under that identity. *)
Lemma serve_holds (requests : list FlightLog) (c : gmap string AnomalySummary)
    (i : string) (s : AnomalySummary) :
  result analyze (serve requests c) !! i = Some s →
  c !! i = Some s
  ∨ ∃ l, l ∈ requests ∧ logId l = i ∧ s = analyze (messages l).
Proof.
  revert c. induction requests as [| log rest IH]; intros c Hi.
  - left. exact Hi.
  - rewrite result_serve_cons in Hi. apply IH in Hi as [Hi | (l & Hl & Hid & Hs)].
    + unfold result in Hi. destruct (c !! logId log) as [s' |] eqn:H.
      * rewrite (summarize_hit _ _ _ H) in Hi. left. exact Hi.
      * rewrite (summarize_miss _ _ H) in Hi. simpl in Hi.
        destruct (decide (logId log = i)) as [Heq | Hne].
        -- rewrite Heq, lookup_insert_eq in Hi. injection Hi as <-.
           right. exists log. split; [left |]. split; [exact Heq | reflexivity].
        -- rewrite lookup_insert_ne in Hi by exact Hne. left. exact Hi.
    + right. exists l. split; [right; exact Hl |]. split; assumption.
Qed.

End MemoFacts.

(** C3. [summarize] is memoized by FlightLog identity.  After any requests
    before and in between, a call with a FlightLog of the same identity as
    an earlier one returns the summary that earlier call returned, runs the
    heuristics zero times and leaves the cache as it was.  Over the whole
    history the heuristics have run once per identity requested; on the
    first request for an identity they run exactly once.  What is returned
    is the heuristics' reading of the log's messages, whatever the history,
    as long as each identity has stood for one content. *)
Theorem summarize_memoized (analyze : list TelemetryMessage → AnomalySummary)
    (before between : list FlightLog) (log log' : FlightLog)
    (Hsame : logId log' = logId log) :
  let c0 := result analyze (serve before ∅) in
  let first := summarize log c0 in
  let c1 := result analyze (serve between (snd (result analyze first))) in
  let second := summarize log' c1 in
  let history := before ++ log :: between ++ [log'] in
  fst (result analyze second) = fst (result analyze first)
  ∧ runs analyze second = 0
  ∧ snd (result analyze second) = c1
  ∧ runs analyze (serve history ∅) = size (identities history)
  ∧ (logId log ∉ identities before → runs analyze first = 1)
  ∧ ((∀ l, l ∈ before → logId l = logId log → messages l = messages log) →
     fst (result analyze first) = analyze (messages log)).
Proof.
  intros c0 first c1 second history.
  assert (Hheld : c1 !! logId log' = Some (fst (result analyze first))).
  { rewrite Hsame. apply serve_retains, summarize_stores. }
  assert (Hsecond : perform analyze second = ((fst (result analyze first), c1), 0)).
  { apply summarize_hit, Hheld. }
  split; [unfold result at 1; rewrite Hsecond; reflexivity |].
  split; [unfold runs; rewrite Hsecond; reflexivity |].
  split; [unfold result at 1; rewrite Hsecond; reflexivity |].
  split; [| split].
  - pose proof (serve_runs analyze history ∅) as Hruns.
    rewrite serve_dom, dom_empty_L, size_empty, (left_id_L ∅ (∪)) in Hruns.
    exact Hruns.
  - intros Hfresh.
    assert (Hmiss : c0 !! logId log = None).
    { apply not_elem_of_dom. unfold c0. rewrite serve_dom, dom_empty_L.
      set_solver. }
    unfold runs, first. rewrite (summarize_miss _ _ _ Hmiss). reflexivity.
  - intros Hone. unfold result at 1, first.
    destruct (c0 !! logId log) as [s |] eqn:Hc0.
    + rewrite (summarize_hit _ _ _ _ Hc0). simpl.
      apply serve_holds in Hc0 as [Hc0 | (l & Hl & Hid & ->)].
      * rewrite lookup_empty in Hc0. discriminate.
      * rewrite (Hone l Hl Hid). reflexivity.
    + rewrite (summarize_miss _ _ _ Hc0). reflexivity.
Qed.

Lemma summarize_memoized_witness :
  logId log_a_again = logId log_a
  ∧ fst (result sample_analyze
           (summarize log_a_again
              (result sample_analyze
                 (serve [log_b]
                    (snd (result sample_analyze
                            (summarize log_a
                               (result sample_analyze (serve [log_b] ∅)))))))))
    = fst (result sample_analyze
             (summarize log_a (result sample_analyze (serve [log_b] ∅)))).
Proof.
  assert (Hsame : logId log_a_again = logId log_a) by reflexivity.
  split; [exact Hsame |].
  exact (proj1 (summarize_memoized sample_analyze [log_b] [log_b]
                  log_a log_a_again Hsame)).
Defined.

End Anomaly.
